(** * roc-syntax-mcp: the topic resolver, the section parser and the
      three tool handlers of [src/index.ts]

    Text is modelled as [string]: a sequence of code units, here the
    code units below 256.  Line numbers are JavaScript numbers used as
    integers and are modelled in [Z].  The outcome of the one file read
    is an input of the handlers, the diagnostic stream an output. *)

From Stdlib Require Import List String Ascii ZArith Lia Bool.
Import ListNotations.
Open Scope string_scope.
Open Scope Z_scope.

(** ** String primitives of the host language *)

Module JsString.

Definition dq : string := String (ascii_of_nat 34) EmptyString.
Definition nl : string := String (ascii_of_nat 10) EmptyString.

(** [s.startsWith(p)] *)
Fixpoint startsWith (s p : string) {struct p} : bool :=
  match p with
  | EmptyString => true
  | String c p' =>
      match s with
      | EmptyString => false
      | String d s' => if Ascii.eqb c d then startsWith s' p' else false
      end
  end.

(** [s.includes(k)]: [k] occurs in [s] at some offset. *)
Fixpoint includes (s k : string) : bool :=
  startsWith s k ||
  match s with
  | EmptyString => false
  | String _ s' => includes s' k
  end.

(** [String.prototype.toLowerCase] on one code unit below 256: the
    letters A-Z and the Latin-1 capitals (all of 0xC0-0xDE but the
    multiplication sign 0xD7) move up by 32. *)
Definition lowerUnit (c : ascii) : ascii :=
  let n := nat_of_ascii c in
  if ((65 <=? n) && (n <=? 90))%nat then ascii_of_nat (n + 32)
  else if ((192 <=? n) && (n <=? 222) && negb (n =? 215))%nat
       then ascii_of_nat (n + 32)
  else c.

Fixpoint toLowerCase (s : string) : string :=
  match s with
  | EmptyString => EmptyString
  | String c s' => String (lowerUnit c) (toLowerCase s')
  end.

(** [xs.join(sep)] *)
Fixpoint join (sep : string) (xs : list string) : string :=
  match xs with
  | [] => EmptyString
  | [x] => x
  | x :: rest => x ++ sep ++ join sep rest
  end.

(** [s.split("\n")]: the pieces between the line feeds, always at
    least one piece. *)
Fixpoint splitLines (s : string) : list string :=
  match s with
  | EmptyString => [EmptyString]
  | String c s' =>
      if Ascii.eqb c (ascii_of_nat 10)
      then EmptyString :: splitLines s'
      else match splitLines s' with
           | piece :: rest => String c piece :: rest
           | [] => [String c EmptyString]
           end
  end.

(** The white space class [\s] of regular expressions, below 256. *)
Definition isSpace (c : ascii) : bool :=
  let n := nat_of_ascii c in
  ((n =? 9) || (n =? 10) || (n =? 11) || (n =? 12) || (n =? 13)
   || (n =? 32) || (n =? 160))%nat.

Fixpoint dropSpaces (s : string) : string :=
  match s with
  | EmptyString => EmptyString
  | String c s' => if isSpace c then dropSpaces s' else s
  end.

(** What is left of [s] after the prefix [p], if [s] starts with it. *)
Fixpoint stripPrefix (s p : string) {struct p} : option string :=
  match p with
  | EmptyString => Some s
  | String c p' =>
      match s with
      | EmptyString => None
      | String d s' => if Ascii.eqb c d then stripPrefix s' p' else None
      end
  end.

(** [/^word\s*tail/.test(s)]; [tail] never starts with white space in
    the catalog, so the greedy [\s*] needs no backtracking. *)
Definition testSpaces0 (word tail s : string) : bool :=
  match stripPrefix s word with
  | Some rest => startsWith (dropSpaces rest) tail
  | None => false
  end.

(** [/^word\s+/.test(s)] *)
Definition testSpaces1 (word s : string) : bool :=
  match stripPrefix s word with
  | Some (String c _) => isSpace c
  | _ => false
  end.

End JsString.
Import JsString.

(** ** The topic table *)

Record Topic := mkTopic {
  keywords : list string;
  description : string
}.

(** [TOPICS] as [Object.entries] enumerates it: the keys in the order of
    the object literal (none of them is an integer index). *)
Definition TOPICS : list (string * Topic) :=
  [ ("operators",
     mkTopic ["operator"; "operators"; "+"; "-"; "*"; "/"; "=="; "!="; "<";
              ">"; "<="; ">="; "and"; "or"; "not"]
             "Arithmetic, comparison, and boolean operators");
    ("pattern_matching",
     mkTopic ["match"; "pattern"; "case"; "switch"]
             "Pattern matching with match expressions");
    ("list_patterns",
     mkTopic ["list"; "array"; "spread"; ".."]
             "List destructuring and pattern matching");
    ("tag_unions",
     mkTopic ["tag"; "union"; "variant"; "enum"; "Ok"; "Err"; "Try"]
             "Tag unions (sum types) and Result/Try types");
    ("strings",
     mkTopic ["string"; "str"; "multiline"; "interpolation"; "unicode"]
             "String literals, multiline strings, and interpolation");
    ("effects",
     mkTopic ["effect"; "effectful"; "!"; "io"; "side effect"]
             "Effectful functions (marked with !)");
    ("loops",
     mkTopic ["for"; "loop"; "iterate"; "var"; "$"]
             "For loops and mutable variables");
    ("conditionals",
     mkTopic ["if"; "else"; "conditional"; "branch"]
             "If/else expressions");
    ("tuples",
     mkTopic ["tuple"; "pair"; "triplet"]
             "Tuple types and destructuring");
    ("records",
     mkTopic ["record"; "struct"; "object"; "field"; "update"]
             "Record types, access, and updates");
    ("types",
     mkTopic ["type"; "annotation"; "signature"; "where"; "constraint"]
             "Type annotations and constraints");
    ("numbers",
     mkTopic ["number"; "int"; "float"; "decimal"; "u8"; "i64"; "f64"; "hex";
              "binary"]
             "Numeric types and literals");
    ("opaque",
     mkTopic ["opaque"; "::"; "newtype"; "wrapper"]
             "Opaque types for type-safe wrappers");
    ("nominal",
     mkTopic ["nominal"; ":="; "custom"; "method"; "is_eq"]
             "Nominal types with custom methods");
    ("functions",
     mkTopic ["function"; "lambda"; "arrow"; "=>"; "->"; "return"]
             "Function definitions and early returns");
    ("imports",
     mkTopic ["import"; "module"; "as"; "alias"]
             "Module imports and aliases");
    ("testing",
     mkTopic ["test"; "expect"; "assert"]
             "Testing with expect and test blocks") ].

(** ** The topic resolver: the match loop of the search handler *)

(** The test of one table entry against the lowercased query. *)
Definition topicMatches (queryLower : string) (entry : string * Topic) : bool :=
  String.eqb (fst entry) queryLower
  || existsb (fun k => includes queryLower k || includes k queryLower)
             (keywords (snd entry)).

(** The [for ... of] loop with its [break]: the first entry that passes. *)
Fixpoint matchLoop (queryLower : string) (entries : list (string * Topic))
  : option (string * string) :=
  match entries with
  | [] => None
  | e :: rest =>
      if topicMatches queryLower e
      then Some (fst e, description (snd e))
      else matchLoop queryLower rest
  end.

Definition resolveFull (query : string) : option (string * string) :=
  matchLoop (toLowerCase query) TOPICS.

(** [matchedTopic], [None] standing for [null]. *)
Definition resolve (query : string) : option string :=
  option_map fst (resolveFull query).

(** ** The section parser *)

Record SyntaxSection := mkSection {
  name : string;
  content : string;
  startLine : Z;
  endLine : Z
}.

(** One entry of [sectionPatterns]: a name and the test of its regular
    expression. *)
Record SectionPattern := mkPattern {
  patName : string;
  pattern : string -> bool
}.

Definition sectionPatterns : list SectionPattern :=
  [ mkPattern "number_operators" (testSpaces0 "number_operators" ":");
    mkPattern "boolean_operators" (testSpaces0 "boolean_operators" ":");
    mkPattern "simple_match" (testSpaces0 "simple_match" ":");
    mkPattern "match_list_patterns" (testSpaces0 "match_list_patterns" ":");
    mkPattern "match_tag_union_advanced"
              (testSpaces0 "match_tag_union_advanced" ":");
    mkPattern "multiline_str" (testSpaces0 "multiline_str" ":");
    mkPattern "effect_demo" (testSpaces0 "effect_demo!" ":");
    mkPattern "for_loop" (testSpaces0 "for_loop" "=");
    mkPattern "dbg_keyword" (testSpaces0 "dbg_keyword" "=");
    mkPattern "if_demo" (testSpaces0 "if_demo" ":");
    mkPattern "tuple_demo" (testSpaces0 "tuple_demo" "=");
    mkPattern "type_var" (testSpaces0 "type_var" ":");
    mkPattern "destructuring" (testSpaces0 "destructuring" "=");
    mkPattern "record_update_2" (testSpaces0 "record_update_2" ":");
    mkPattern "number_literals" (testSpaces0 "number_literals" "=");
    mkPattern "opaque_types" (testSpaces0 "Username" "::");
    mkPattern "nominal_types" (testSpaces0 "Animal" ":=");
    mkPattern "early_return" (testSpaces0 "early_return" "=");
    mkPattern "where_clause" (testSpaces0 "stringify" ":");
    mkPattern "main" (testSpaces0 "main!" "=");
    mkPattern "imports" (testSpaces1 "import");
    mkPattern "app_header" (testSpaces0 "app" "[") ].

(** The two variables of the parsing loop. *)
Record ParseState := mkState {
  sections : list SyntaxSection;
  currentSection : option SyntaxSection
}.

Definition initState : ParseState := mkState [] None.

(** One turn of the outer loop, at the 0-based index [i]. *)
Definition lineStep (pats : list SectionPattern) (i : Z) (line : string)
  (st : ParseState) : ParseState :=
  (* the inner loop over the catalog, left at the first match *)
  let st1 :=
    match find (fun p => pattern p line) pats with
    | Some p =>
        mkState
          match currentSection st with
          | Some cur =>
              sections st
              ++ [mkSection (name cur) (content cur) (startLine cur) (i - 1)]
          | None => sections st
          end
          (Some (mkSection (patName p) line (i + 1) (i + 1)))
    | None => st
    end in
  (* the continuation line *)
  match currentSection st1 with
  | Some cur =>
      if negb (existsb (fun p => pattern p line) pats)
      then mkState (sections st1)
             (Some (mkSection (name cur) (content cur ++ nl ++ line)
                              (startLine cur) (i + 1)))
      else st1
  | None => st1
  end.

Fixpoint parseLoop (pats : list SectionPattern) (lines : list string) (i : Z)
  (st : ParseState) : ParseState :=
  match lines with
  | [] => st
  | line :: rest => parseLoop pats rest (i + 1) (lineStep pats i line st)
  end.

(** The result once the loop is over: a section still open is pushed. *)
Definition finish (st : ParseState) : list SyntaxSection :=
  match currentSection st with
  | Some cur => sections st ++ [cur]
  | None => sections st
  end.

(** The parser over an arbitrary catalog. *)
Definition parseWith (pats : list SectionPattern) (content : string)
  : list SyntaxSection :=
  finish (parseLoop pats (splitLines content) 0 initState).

Definition parseSyntaxSections (content : string) : list SyntaxSection :=
  parseWith sectionPatterns content.

(** ** The document loader *)

(** What [fs.readFileSync] does: it returns the text of the file or
    throws; of the thrown value only its rendering as a string is used. *)
Inductive ReadOutcome :=
| ReadOk (data : string)
| ReadThrows (error : string).

(** A value together with the lines written to the diagnostic stream. *)
Definition Logged (A : Type) : Type := A * list string.

Definition ret {A} (a : A) : Logged A := (a, []).

Definition bind {A B} (m : Logged A) (k : A -> Logged B) : Logged B :=
  let (b, more) := k (fst m) in (b, (snd m ++ more)%list).

Definition consoleError (line : string) : Logged unit := (tt, [line]).

Notation "x <- m ;; k" := (bind m (fun x => k))
  (at level 61, m at next level, right associativity).

Definition loadFailure : string :=
  "Error: Could not load Roc syntax reference file.".

Definition loadSyntaxReference (file : ReadOutcome) : Logged string :=
  match file with
  | ReadOk data => ret data
  | ReadThrows error =>
      _ <- consoleError ("Failed to load syntax reference: " ++ error) ;;
      ret loadFailure
  end.

(** ** The tool handlers *)

(** A tool result: the text of its one content item and its structured
    content. *)
Record ToolResult (A : Type) := mkResult {
  text : string;
  structuredContent : A
}.
Arguments mkResult {A} _ _.
Arguments text {A} _.
Arguments structuredContent {A} _.

Record SyntaxOut := mkSyntaxOut { syntax : string }.

Definition get_roc_syntax (file : ReadOutcome) : Logged (ToolResult SyntaxOut) :=
  syntax <- loadSyntaxReference file ;;
  ret (mkResult syntax (mkSyntaxOut syntax)).

Record SearchOut := mkSearchOut {
  topic : string;
  outDescription : string;
  examples : string
}.

(** [sections.find((s) => s.name === n)?.content || ""] *)
Definition sectionContent (secs : list SyntaxSection) (n : string) : string :=
  match find (fun s => String.eqb (name s) n) secs with
  | Some s => content s
  | None => ""
  end.

Definition unicodeExample : string :=
  "Unicode escape: " ++ dq ++ "\u(00A0)" ++ dq.

(** The [switch] over the matched topic: what is pushed on
    [relevantSections]. *)
Definition relevantSections (matchedTopic : string)
  (secs : list SyntaxSection) (lines : list string) : list string :=
  if String.eqb matchedTopic "operators" then
    [sectionContent secs "number_operators";
     sectionContent secs "boolean_operators"]
  else if String.eqb matchedTopic "pattern_matching" then
    [sectionContent secs "simple_match"]
  else if String.eqb matchedTopic "list_patterns" then
    [sectionContent secs "match_list_patterns"]
  else if String.eqb matchedTopic "tag_unions" then
    [sectionContent secs "match_tag_union_advanced"]
  else if String.eqb matchedTopic "strings" then
    [sectionContent secs "multiline_str"; unicodeExample]
  else if String.eqb matchedTopic "effects" then
    [sectionContent secs "effect_demo"]
  else if String.eqb matchedTopic "loops" then
    [sectionContent secs "for_loop"]
  else if String.eqb matchedTopic "conditionals" then
    [sectionContent secs "if_demo"]
  else if String.eqb matchedTopic "tuples" then
    [sectionContent secs "tuple_demo"]
  else if String.eqb matchedTopic "records" then
    [sectionContent secs "destructuring";
     sectionContent secs "record_update_2"]
  else if String.eqb matchedTopic "types" then
    [sectionContent secs "type_var"; sectionContent secs "where_clause"]
  else if String.eqb matchedTopic "numbers" then
    [sectionContent secs "number_literals"]
  else if String.eqb matchedTopic "opaque" then
    [sectionContent secs "opaque_types"]
  else if String.eqb matchedTopic "nominal" then
    [sectionContent secs "nominal_types"]
  else if String.eqb matchedTopic "functions" then
    [sectionContent secs "early_return"]
  else if String.eqb matchedTopic "imports" then
    [join nl (filter (fun l => startsWith l "import ") lines)]
  else if String.eqb matchedTopic "testing" then
    [join nl (filter (fun l => includes l "expect ") lines)]
  else [].

Definition separator : string := nl ++ nl ++ "---" ++ nl ++ nl.

(** [Boolean] on a string: the empty string alone is falsy. *)
Definition truthy (s : string) : bool := negb (String.eqb s "").

(** [relevantSections.filter(Boolean).join("\n\n---\n\n")] *)
Definition assemble (relevant : list string) : string :=
  join separator (filter truthy relevant).

Definition topicList : string :=
  join nl (map (fun e => "- " ++ fst e ++ ": " ++ description (snd e)) TOPICS).

(** No key of the table is empty, so [!matchedTopic] holds exactly when
    the loop has left [matchedTopic] at [null]. *)
Definition search_roc_syntax (file : ReadOutcome) (query : string)
  : Logged (ToolResult SearchOut) :=
  fullContent <- loadSyntaxReference file ;;
  let secs := parseSyntaxSections fullContent in
  match resolveFull query with
  | None =>
      ret (mkResult
             ("No exact match for " ++ dq ++ query ++ dq
              ++ ". Available topics:" ++ nl ++ nl ++ topicList)
             (mkSearchOut "help" "Available topics" topicList))
  | Some (matchedTopic, matchedDescription) =>
      let lines := splitLines fullContent in
      let examples :=
        assemble (relevantSections matchedTopic secs lines) in
      ret (mkResult
             ("## " ++ matchedTopic ++ nl ++ nl ++ matchedDescription
              ++ nl ++ nl ++ "### Examples:" ++ nl ++ nl ++ "```roc" ++ nl
              ++ examples ++ nl ++ "```")
             (mkSearchOut matchedTopic matchedDescription examples))
  end.

Record TopicEntry := mkEntry {
  entryName : string;
  entryDescription : string
}.

Definition list_roc_topics : ToolResult (list TopicEntry) :=
  let topics := map (fun e => mkEntry (fst e) (description (snd e))) TOPICS in
  let formatted :=
    join nl (map (fun t => "- **" ++ entryName t ++ "**: "
                           ++ entryDescription t) topics) in
  mkResult ("# Available Roc Syntax Topics" ++ nl ++ nl ++ formatted) topics.

(** * Notions used in the statements *)

(** [k] occurs in [s]. *)
Definition isSubstring (k s : string) : Prop :=
  exists a b, s = a ++ k ++ b.

(** What the resolver tests of one table entry, in words of
    containment: the query (lowercased) is the name, or a keyword occurs
    in it, or it occurs in a keyword. *)
Definition satisfies (queryLower : string) (entry : string * Topic) : Prop :=
  queryLower = fst entry
  \/ exists k, In k (keywords (snd entry))
              /\ (isSubstring k queryLower \/ isSubstring queryLower k).

(** The catalog [{foo: /^foo:/, bar: /^bar=/}]. *)
Definition fooBar : list SectionPattern :=
  [ mkPattern "foo" (fun line => startsWith line "foo:");
    mkPattern "bar" (fun line => startsWith line "bar=") ].

(** The section names the selector looks up for each topic. *)
Definition topicSections : list (string * list string) :=
  [ ("operators", ["number_operators"; "boolean_operators"]);
    ("pattern_matching", ["simple_match"]);
    ("list_patterns", ["match_list_patterns"]);
    ("tag_unions", ["match_tag_union_advanced"]);
    ("strings", ["multiline_str"]);
    ("effects", ["effect_demo"]);
    ("loops", ["for_loop"]);
    ("conditionals", ["if_demo"]);
    ("tuples", ["tuple_demo"]);
    ("records", ["destructuring"; "record_update_2"]);
    ("types", ["type_var"; "where_clause"]);
    ("numbers", ["number_literals"]);
    ("opaque", ["opaque_types"]);
    ("nominal", ["nominal_types"]);
    ("functions", ["early_return"]);
    ("imports", []);
    ("testing", []) ].

Definition mappedSections (t : string) : list string :=
  match find (fun e => String.eqb (fst e) t) topicSections with
  | Some e => snd e
  | None => []
  end.

(** What a topic contributes besides its mapped sections: the fixed
    example of [strings], the raw lines of [imports] and [testing]. *)
Definition extras (t : string) (lines : list string) : list string :=
  if String.eqb t "strings" then [unicodeExample]
  else if String.eqb t "imports" then
    [join nl (filter (fun l => startsWith l "import ") lines)]
  else if String.eqb t "testing" then
    [join nl (filter (fun l => includes l "expect ") lines)]
  else [].

(** A line that some rule of the catalog matches opens a section. *)
Definition isHeader (pats : list SectionPattern) (line : string) : bool :=
  existsb (fun p => pattern p line) pats.

(** [p] is the first rule of the catalog, in its order, that matches
    [line]. *)
Definition FirstMatch (pats : list SectionPattern) (line : string)
  (p : SectionPattern) : Prop :=
  exists before after,
    pats = (before ++ p :: after)%list
    /\ pattern p line = true
    /\ Forall (fun q => pattern q line = false) before.

(** The number of lines of a text. *)
Definition lineCount (s : string) : Z :=
  Z.of_nat (List.length (splitLines s)).

(** The 1-based number of the last line of a section's content. *)
Definition lastLine (s : SyntaxSection) : Z :=
  startLine s + lineCount (content s) - 1.

Fixpoint noLF (s : string) : bool :=
  match s with
  | EmptyString => true
  | String c s' => negb (Ascii.eqb c (ascii_of_nat 10)) && noLF s'
  end.

(** The section [s] is a run of [lines]: a header line, at the 1-based
    number [startLine s], that the rule named [name s] matches first,
    and the lines after it up to the next header line or to [back]; its
    content is these lines. *)
Definition Spans (pats : list SectionPattern) (lines : list string)
  (back : list string) (s : SyntaxSection) : Prop :=
  exists front hd body p,
    lines = (front ++ hd :: body ++ back)%list
    /\ startLine s = Z.of_nat (List.length front) + 1
    /\ content s = join nl (hd :: body)
    /\ FirstMatch pats hd p
    /\ name s = patName p
    /\ Forall (fun l => isHeader pats l = false) body.

Definition SpansSome (pats : list SectionPattern) (lines : list string)
  (s : SyntaxSection) : Prop :=
  exists back, Spans pats lines back s.

(** The closed sections follow one another up to [stop], and each has
    its end line one short of its last line. *)
Fixpoint chain (closed : list SyntaxSection) (stop : Z) : Prop :=
  match closed with
  | [] => True
  | a :: rest =>
      lastLine a + 1 = match rest with
                       | b :: _ => startLine b
                       | [] => stop
                       end
      /\ endLine a = lastLine a - 1
      /\ chain rest stop
  end.

(** The invariant of the parsing loop once the lines [done] are read. *)
Definition LoopInv (pats : list SectionPattern) (done : list string)
  (st : ParseState) : Prop :=
  match currentSection st with
  | None => sections st = []
  | Some c =>
      Forall (SpansSome pats done) (sections st)
      /\ Spans pats done [] c
      /\ lastLine c = Z.of_nat (List.length done)
      /\ endLine c = Z.of_nat (List.length done)
      /\ chain (sections st) (startLine c)
  end.

(** What the loop invariant leaves at the end of the input. *)
Definition Parsed (pats : list SectionPattern) (lines : list string)
  (secs : list SyntaxSection) : Prop :=
  Forall (SpansSome pats lines) secs
  /\ (secs = []
      \/ exists closed c,
           secs = (closed ++ [c])%list
           /\ chain closed (startLine c)
           /\ lastLine c = Z.of_nat (List.length lines)
           /\ endLine c = Z.of_nat (List.length lines)).

(** [a] lies wholly before [b]: so do its lines, and its recorded end. *)
Definition Before (a b : SyntaxSection) : Prop :=
  startLine a < startLine b
  /\ lastLine a < startLine b
  /\ endLine a < startLine b.

(** The names the catalog gives to the lines it matches, line by line:
    for each matched line the name of the first rule that matches it. *)
Definition headerNames (pats : list SectionPattern) (lines : list string)
  : list string :=
  flat_map (fun line =>
              match find (fun p => pattern p line) pats with
              | Some p => [patName p]
              | None => []
              end) lines.

(** The lines from the first matched line on. *)
Fixpoint dropJunk (pats : list SectionPattern) (lines : list string)
  : list string :=
  match lines with
  | [] => []
  | line :: rest => if isHeader pats line then lines else dropJunk pats rest
  end.

(** The lines of a section's content. *)
Definition sectionLines (s : SyntaxSection) : list string :=
  splitLines (content s).

(** * Properties *)

(** ** Containment *)

Lemma startsWith_spec (s p : string) :
  startsWith s p = true <-> exists b, s = p ++ b.
Proof.
  revert s; induction p as [|c p IH]; intros s; simpl.
  - split; [intros _; now exists s | reflexivity].
  - destruct s as [|d s].
    + split; [discriminate | intros [b Hb]; discriminate].
    + destruct (Ascii.eqb_spec c d) as [->|Hcd].
      * rewrite IH. split; intros [b Hb]; exists b.
        -- now rewrite Hb.
        -- now injection Hb.
      * split; [discriminate | intros [b Hb]; injection Hb; congruence].
Qed.

Lemma includes_spec (s k : string) :
  includes s k = true <-> isSubstring k s.
Proof.
  unfold isSubstring.
  induction s as [|c s IH]; simpl.
  - rewrite orb_false_r, startsWith_spec. split.
    + intros [b Hb]. now exists "", b.
    + intros [a [b Hab]]. destruct a; [now exists b | discriminate].
  - rewrite orb_true_iff, IH, startsWith_spec. split.
    + intros [[b Hb] | [a [b Hab]]].
      * now exists "", b.
      * exists (String c a), b. simpl. now rewrite Hab.
    + intros [a [b Hab]]. destruct a as [|d a]; simpl in Hab.
      * left. now exists b.
      * right. exists a, b. now injection Hab.
Qed.

Lemma topicMatches_spec (queryLower : string) (entry : string * Topic) :
  topicMatches queryLower entry = true <-> satisfies queryLower entry.
Proof.
  unfold topicMatches, satisfies.
  rewrite orb_true_iff, String.eqb_eq, existsb_exists.
  split; (intros [H | [k [Hin Hk]]]; [left; congruence | right; exists k]);
    (split; [assumption|]).
  - apply orb_true_iff in Hk. now rewrite !includes_spec in Hk.
  - apply orb_true_iff. now rewrite !includes_spec.
Qed.

Lemma matchLoop_first (queryLower : string) (entries : list (string * Topic)) :
  match matchLoop queryLower entries with
  | Some (t, d) =>
      exists before e after,
        entries = (before ++ e :: after)%list
        /\ t = fst e /\ d = description (snd e)
        /\ satisfies queryLower e
        /\ forall e', In e' before -> ~ satisfies queryLower e'
  | None => forall e, In e entries -> ~ satisfies queryLower e
  end.
Proof.
  induction entries as [|e rest IH]; simpl.
  - intros e [].
  - destruct (topicMatches queryLower e) eqn:He.
    + exists [], e, rest. repeat split; try reflexivity.
      * now apply topicMatches_spec.
      * intros e' [].
    + assert (Hno : ~ satisfies queryLower e).
      { rewrite <- topicMatches_spec. congruence. }
      destruct (matchLoop queryLower rest) as [[t d]|].
      * destruct IH as (before & e1 & after & -> & Ht & Hd & Hsat & Hbefore).
        exists (e :: before), e1, after. repeat split; try assumption.
        intros e' [<- | Hin]; [assumption | now apply Hbefore].
      * intros e' [<- | Hin]; [assumption | now apply IH].
Qed.

(** ** The topic resolver *)

Lemma search_structured (file : ReadOutcome) (query : string) :
  structuredContent (fst (search_roc_syntax file query)) =
  match resolveFull query with
  | None => mkSearchOut "help" "Available topics" topicList
  | Some (t, d) =>
      let doc := fst (loadSyntaxReference file) in
      mkSearchOut t d
        (assemble (relevantSections t (parseSyntaxSections doc)
                                    (splitLines doc)))
  end.
Proof.
  unfold search_roc_syntax, bind.
  destruct (loadSyntaxReference file) as [doc log]; simpl.
  destruct (resolveFull query) as [[t d]|]; reflexivity.
Qed.

(** C1, evaluated on the table: the resolver run on each of the 17
    topic names.  Twelve names come back as themselves; [list_patterns],
    [conditionals], [records], [functions] and [imports] resolve to an
    earlier topic, one of whose keywords occurs in the name. *)
Theorem resolve_topic_names :
  map (fun e => (fst e, resolve (fst e))) TOPICS =
  [ ("operators", Some "operators");
    ("pattern_matching", Some "pattern_matching");
    ("list_patterns", Some "pattern_matching");
    ("tag_unions", Some "tag_unions");
    ("strings", Some "strings");
    ("effects", Some "effects");
    ("loops", Some "loops");
    ("conditionals", Some "effects");
    ("tuples", Some "tuples");
    ("records", Some "operators");
    ("types", Some "types");
    ("numbers", Some "numbers");
    ("opaque", Some "opaque");
    ("nominal", Some "nominal");
    ("functions", Some "effects");
    ("imports", Some "operators");
    ("testing", Some "testing") ].
Proof. vm_compute. reflexivity. Qed.

(** C2 as stated fails: the empty query and ["xyz-no-such-topic"] both
    resolve to [operators], and the search handler answers with that
    topic, not with the help listing. *)
Lemma resolve_no_match_refuted :
  resolve "" = Some "operators"
  /\ resolve "xyz-no-such-topic" = Some "operators"
  /\ (forall file,
        topic (structuredContent (fst (search_roc_syntax file "")))
        = "operators")
  /\ (forall file,
        topic (structuredContent
                 (fst (search_roc_syntax file "xyz-no-such-topic")))
        = "operators")
  /\ "operators" <> "help".
Proof.
  assert (H1 : resolveFull "" = Some ("operators",
            "Arithmetic, comparison, and boolean operators"))
    by (vm_compute; reflexivity).
  assert (H2 : resolveFull "xyz-no-such-topic" = Some ("operators",
            "Arithmetic, comparison, and boolean operators"))
    by (vm_compute; reflexivity).
  unfold resolve. rewrite H1, H2.
  split; [reflexivity|]. split; [reflexivity|].
  split; [|split]; try discriminate;
    intros file; rewrite search_structured;
    [rewrite H1 | rewrite H2]; reflexivity.
Qed.

(** C2, amended: the query ["xyz-no-such-topic"] contains the keyword
    ["-"] and resolves to the first topic, [operators]; the query
    ["zzz"] yields no match; and on every query without a match the
    search handler returns the help listing, its topic field being
    ["help"]. *)
Theorem search_help_on_no_match :
  resolve "xyz-no-such-topic" = Some "operators"
  /\ isSubstring "-" (toLowerCase "xyz-no-such-topic")
  /\ resolve "zzz" = None
  /\ forall file query,
       resolve query = None ->
       structuredContent (fst (search_roc_syntax file query))
       = mkSearchOut "help" "Available topics" topicList.
Proof.
  split; [vm_compute; reflexivity|].
  split; [now exists "xyz", "no-such-topic"|].
  split; [vm_compute; reflexivity|].
  intros file query Hnone. rewrite search_structured.
  unfold resolve in Hnone.
  destruct (resolveFull query) as [[t d]|]; [discriminate | reflexivity].
Qed.

Lemma search_help_on_no_match_witness :
  resolve "zzz" = None
  /\ structuredContent (fst (search_roc_syntax (ReadThrows "EACCES") "zzz"))
     = mkSearchOut "help" "Available topics" topicList.
Proof.
  split; [vm_compute; reflexivity |].
  apply (proj2 (proj2 (proj2 search_help_on_no_match))).
  vm_compute; reflexivity.
Defined.

(** C3: for every query the resolver returns the first entry of the
    table, in its declared order, whose name is the lowercased query or
    one of whose keywords occurs in the lowercased query or contains it:
    no entry before the one returned passes this test, and when nothing
    is returned no entry passes it. *)
Theorem resolve_first_match (query : string) :
  match resolve query with
  | Some t =>
      exists before e after,
        TOPICS = (before ++ e :: after)%list
        /\ t = fst e
        /\ satisfies (toLowerCase query) e
        /\ forall e', In e' before -> ~ satisfies (toLowerCase query) e'
  | None => forall e, In e TOPICS -> ~ satisfies (toLowerCase query) e
  end.
Proof.
  unfold resolve, resolveFull.
  pose proof (matchLoop_first (toLowerCase query) TOPICS) as H.
  destruct (matchLoop (toLowerCase query) TOPICS) as [[t d]|]; simpl.
  - destruct H as (before & e & after & Heq & Ht & _ & Hsat & Hbefore).
    now exists before, e, after.
  - exact H.
Qed.

Lemma resolve_first_match_witness :
  exists before e after,
    TOPICS = (before ++ e :: after)%list
    /\ "pattern_matching" = fst e
    /\ satisfies "list_patterns" e
    /\ forall e', In e' before -> ~ satisfies "list_patterns" e'.
Proof. exact (resolve_first_match "List_Patterns"). Defined.

(** ** The section parser on the two-rule catalog *)

(** C4: the document of the lines junk, foo:, a, b, bar=, c parsed
    against the rules foo and bar gives exactly two sections, foo with
    its header line followed by a and b, and bar with its header line
    followed by c; the junk line is in neither. *)
Theorem parse_foo_bar :
  let doc := join nl ["junk"; "foo:"; "a"; "b"; "bar="; "c"] in
  splitLines doc = ["junk"; "foo:"; "a"; "b"; "bar="; "c"]
  /\ parseWith fooBar doc =
     [ mkSection "foo" (join nl ["foo:"; "a"; "b"]) 2 3;
       mkSection "bar" (join nl ["bar="; "c"]) 5 6 ]
  /\ Forall (fun s => includes (content s) "junk" = false)
            (parseWith fooBar doc).
Proof.
  vm_compute. split; [reflexivity|]. split; [reflexivity|].
  repeat constructor.
Qed.

(** ** The loader and the full-reference tool *)

(** C5: when the read succeeds, the text and the structured [syntax]
    field of [get_roc_syntax] are the content read, as it is; when the
    read throws, both are the fixed failure string. *)
Theorem get_roc_syntax_round_trip :
  (forall data,
     fst (get_roc_syntax (ReadOk data)) = mkResult data (mkSyntaxOut data))
  /\ (forall error,
        fst (get_roc_syntax (ReadThrows error))
        = mkResult loadFailure (mkSyntaxOut loadFailure)).
Proof. split; intros; reflexivity. Qed.

(** C6 as stated fails: the string returned on a failed read does not
    embed the failure detail; two different failures give the same
    string, in which the detail does not occur. *)
Lemma load_failure_detail_refuted :
  let detail := "ENOENT: no such file or directory" in
  includes (fst (loadSyntaxReference (ReadThrows detail))) detail = false
  /\ fst (loadSyntaxReference (ReadThrows detail))
     = fst (loadSyntaxReference (ReadThrows "EACCES: permission denied")).
Proof. vm_compute. split; reflexivity. Qed.

(** C6, amended: on a failed read the loader returns, whatever the
    failure, one fixed string; the failure detail goes to the diagnostic
    stream only; both callers go on with the fixed string as the
    document text, in which the parser finds no section. *)
Theorem load_failure_is_fixed_text (error : string) :
  loadSyntaxReference (ReadThrows error)
  = ("Error: Could not load Roc syntax reference file.",
     ["Failed to load syntax reference: " ++ error])
  /\ fst (get_roc_syntax (ReadThrows error))
     = fst (get_roc_syntax (ReadOk loadFailure))
  /\ (forall query,
        fst (search_roc_syntax (ReadThrows error) query)
        = fst (search_roc_syntax (ReadOk loadFailure) query))
  /\ parseSyntaxSections loadFailure = [].
Proof.
  split; [reflexivity|]. split; [reflexivity|]. split.
  - intros query. unfold search_roc_syntax, bind. simpl.
    destruct (resolveFull query) as [[t d]|]; reflexivity.
  - vm_compute. reflexivity.
Qed.

(** ** The topic listing *)

(** C9: [list_roc_topics] returns one entry per entry of the table, in
    the table's order, each with the name and the description of its
    table entry, and no name twice. *)
Theorem list_roc_topics_entries :
  let topics := structuredContent list_roc_topics in
  Forall2 (fun e t => entryName t = fst e
                      /\ entryDescription t = description (snd e))
          TOPICS topics
  /\ map entryName topics = map fst TOPICS
  /\ List.length topics = 17%nat
  /\ NoDup (map entryName topics).
Proof.
  split; [|split; [|split]].
  - vm_compute. repeat constructor.
  - reflexivity.
  - reflexivity.
  - vm_compute.
    repeat (constructor;
            [simpl; intros H;
             repeat (destruct H as [H|H]; [discriminate H|]); exact H|]).
    constructor.
Qed.

(** ** The section selector *)

Lemma truthy_spec (s : string) : truthy s = true <-> s <> "".
Proof.
  unfold truthy. rewrite negb_true_iff. split.
  - intros H ->. discriminate.
  - intros H. now apply String.eqb_neq.
Qed.

Lemma sectionContent_absent (secs : list SyntaxSection) (n : string) :
  ~ In n (map name secs) -> sectionContent secs n = "".
Proof.
  unfold sectionContent. intros Habsent.
  destruct (find (fun s => String.eqb (name s) n) secs) as [s|] eqn:Hfind;
    [|reflexivity].
  apply find_some in Hfind. destruct Hfind as [Hin Heq].
  apply String.eqb_eq in Heq. subst n.
  exfalso. apply Habsent. now apply in_map.
Qed.

Lemma relevantSections_table (t : string) (secs : list SyntaxSection)
  (lines : list string) :
  In t (map fst TOPICS) ->
  relevantSections t secs lines
  = (map (sectionContent secs) (mappedSections t) ++ extras t lines)%list.
Proof.
  simpl. intros H.
  repeat (destruct H as [<-|H]; [reflexivity|]). destruct H.
Qed.

Lemma resolveFull_in_table (query t d : string) :
  resolveFull query = Some (t, d) -> In t (map fst TOPICS).
Proof.
  unfold resolveFull. intros H.
  pose proof (matchLoop_first (toLowerCase query) TOPICS) as Hfirst.
  rewrite H in Hfirst.
  destruct Hfirst as (before & e & after & Heq & -> & _).
  rewrite Heq, map_app. apply in_or_app. right. now left.
Qed.

(** C7: for every resolved topic, the contributions are the contents of
    the mapped sections, looked up by name, followed by the topic's
    extras; a mapped name absent from the parsed sections contributes
    the empty string; the examples payload of the search handler is the
    non-empty contributions joined by a blank line, three dashes and a
    blank line; for [strings] the fixed unicode example is always the
    last of them. *)
Theorem selector_examples (file : ReadOutcome) (query t : string) :
  resolve query = Some t ->
  let doc := fst (loadSyntaxReference file) in
  let secs := parseSyntaxSections doc in
  let contributions := relevantSections t secs (splitLines doc) in
  contributions
  = (map (sectionContent secs) (mappedSections t)
     ++ extras t (splitLines doc))%list
  /\ (forall n, In n (mappedSections t) -> ~ In n (map name secs) ->
                sectionContent secs n = "")
  /\ examples (structuredContent (fst (search_roc_syntax file query)))
     = join (nl ++ nl ++ "---" ++ nl ++ nl)
            (filter (fun c => negb (String.eqb c "")) contributions)
  /\ ~ In "" (filter (fun c => negb (String.eqb c "")) contributions)
  /\ (t = "strings" ->
      exists front,
        filter (fun c => negb (String.eqb c "")) contributions
        = (front ++ [unicodeExample])%list).
Proof.
  intros Hres doc secs contributions.
  unfold resolve in Hres.
  destruct (resolveFull query) as [[t' d]|] eqn:Hfull; [|discriminate].
  injection Hres as ->.
  split; [|split; [|split; [|split]]].
  - apply relevantSections_table. eapply resolveFull_in_table; eassumption.
  - intros n _. apply sectionContent_absent.
  - rewrite search_structured, Hfull. reflexivity.
  - intros Hin. apply filter_In in Hin. destruct Hin as [_ Hin].
    discriminate Hin.
  - intros ->. unfold contributions. simpl.
    destruct (negb (String.eqb (sectionContent secs "multiline_str") "")).
    + now exists [sectionContent secs "multiline_str"].
    + now exists [].
Qed.

Lemma selector_examples_witness :
  examples (structuredContent
              (fst (search_roc_syntax (ReadThrows "ENOENT") "Unicode")))
  = join (nl ++ nl ++ "---" ++ nl ++ nl)
      (filter (fun c => negb (String.eqb c ""))
         (relevantSections "strings"
            (parseSyntaxSections
               (fst (loadSyntaxReference (ReadThrows "ENOENT"))))
            (splitLines (fst (loadSyntaxReference (ReadThrows "ENOENT")))))).
Proof.
  refine (proj1 (proj2 (proj2
            (selector_examples (ReadThrows "ENOENT") "Unicode" "strings" _)))).
  vm_compute. reflexivity.
Defined.

(** ** Lines of a text *)

Lemma splitLines_nonempty (s : string) : splitLines s <> [].
Proof.
  destruct s as [|c s]; simpl; [discriminate|].
  destruct (Ascii.eqb c (ascii_of_nat 10)); [discriminate|].
  destruct (splitLines s); discriminate.
Qed.

Lemma splitLines_noLF (s : string) :
  Forall (fun l => noLF l = true) (splitLines s).
Proof.
  induction s as [|c s IH]; simpl.
  - repeat constructor.
  - destruct (Ascii.eqb c (ascii_of_nat 10)) eqn:Hc.
    + constructor; [reflexivity | assumption].
    + destruct (splitLines s) as [|piece rest].
      * constructor; [simpl; now rewrite Hc | constructor].
      * inversion IH; subst. constructor; [|assumption].
        simpl. now rewrite Hc.
Qed.

Lemma splitLines_app (a r : string) :
  splitLines (a ++ nl ++ r) = (splitLines a ++ splitLines r)%list.
Proof.
  induction a as [|c a IH]; simpl.
  - reflexivity.
  - destruct (Ascii.eqb c (ascii_of_nat 10)).
    + simpl. now rewrite <- IH.
    + change (String (ascii_of_nat 10) r) with (nl ++ r) in *.
      rewrite IH.
      pose proof (splitLines_nonempty a) as Hne.
      destruct (splitLines a) as [|piece rest]; [contradiction|reflexivity].
Qed.

Lemma splitLines_one (l : string) : noLF l = true -> splitLines l = [l].
Proof.
  induction l as [|c l IH]; simpl; [reflexivity|].
  intros H. apply andb_true_iff in H. destruct H as [Hc Hl].
  apply negb_true_iff in Hc. rewrite Hc, (IH Hl). reflexivity.
Qed.

Lemma lineCount_pos (s : string) : 1 <= lineCount s.
Proof.
  unfold lineCount. pose proof (splitLines_nonempty s).
  destruct (splitLines s); [contradiction | simpl; lia].
Qed.

Lemma lineCount_one (l : string) : noLF l = true -> lineCount l = 1.
Proof. intros H. unfold lineCount. now rewrite splitLines_one. Qed.

Lemma lineCount_append_line (a l : string) :
  noLF l = true -> lineCount (a ++ nl ++ l) = lineCount a + 1.
Proof.
  intros H. unfold lineCount.
  rewrite splitLines_app, length_app, (splitLines_one l H).
  simpl. lia.
Qed.

Lemma append_assoc (a b c : string) : (a ++ b) ++ c = a ++ b ++ c.
Proof. induction a as [|d a IH]; simpl; [reflexivity | now rewrite IH]. Qed.

Lemma join_snoc (sep x : string) (xs : list string) :
  xs <> [] -> join sep (xs ++ [x]) = join sep xs ++ sep ++ x.
Proof.
  induction xs as [|y ys IH]; [contradiction|]. intros _.
  destruct ys as [|z ys]; [reflexivity|].
  change (join sep ((y :: z :: ys) ++ [x]))
    with (y ++ sep ++ join sep ((z :: ys) ++ [x])).
  rewrite IH by discriminate.
  change (join sep (y :: z :: ys)) with (y ++ sep ++ join sep (z :: ys)).
  now rewrite !append_assoc.
Qed.

(** ** The catalog test *)

Lemma find_first (pats : list SectionPattern) (line : string)
  (p : SectionPattern) :
  find (fun q => pattern q line) pats = Some p -> FirstMatch pats line p.
Proof.
  unfold FirstMatch. induction pats as [|q pats IH]; simpl; [discriminate|].
  destruct (pattern q line) eqn:Hq.
  - intros [= ->]. exists [], pats. now repeat split.
  - intros Hfind. destruct (IH Hfind) as (before & after & -> & Hp & Hno).
    exists (q :: before), after. repeat split; [assumption|].
    now constructor.
Qed.

Lemma find_isHeader (pats : list SectionPattern) (line : string) :
  match find (fun q => pattern q line) pats with
  | Some _ => isHeader pats line = true
  | None => isHeader pats line = false
  end.
Proof.
  unfold isHeader. induction pats as [|q pats IH]; simpl; [reflexivity|].
  destruct (pattern q line); [reflexivity | exact IH].
Qed.

Lemma FirstMatch_isHeader (pats : list SectionPattern) (line : string)
  (p : SectionPattern) :
  FirstMatch pats line p -> isHeader pats line = true.
Proof.
  intros (before & after & -> & Hp & _). unfold isHeader.
  rewrite existsb_app. simpl. rewrite Hp. now rewrite orb_true_r.
Qed.

(** ** The invariant of the parsing loop *)

Section ParseLoop.

Variable pats : list SectionPattern.

Lemma Spans_more (done back more : list string) (s : SyntaxSection) :
  Spans pats done back s ->
  Spans pats (done ++ more) (back ++ more) s.
Proof.
  intros (front & hd & body & p & -> & H).
  exists front, hd, body, p. split; [|exact H].
  now rewrite <- app_assoc, <- app_comm_cons, <- app_assoc.
Qed.

Lemma SpansSome_more (done more : list string) (s : SyntaxSection) :
  SpansSome pats done s -> SpansSome pats (done ++ more) s.
Proof.
  intros [back H]. exists (back ++ more)%list. now apply Spans_more.
Qed.

Lemma chain_snoc (closed : list SyntaxSection) (a : SyntaxSection)
  (stop : Z) :
  chain closed (startLine a) ->
  lastLine a + 1 = stop ->
  endLine a = lastLine a - 1 ->
  chain (closed ++ [a]) stop.
Proof.
  intros Hchain Hlast Hend.
  induction closed as [|b rest IH]; simpl.
  - now repeat split.
  - destruct Hchain as (Hb & Hbend & Hrest).
    repeat split; [|assumption|now apply IH].
    destruct rest; simpl; assumption.
Qed.

Lemma LoopInv_init : LoopInv pats [] initState.
Proof. reflexivity. Qed.

Lemma lineStep_inv (done : list string) (line : string) (st : ParseState) :
  noLF line = true ->
  LoopInv pats done st ->
  LoopInv pats (done ++ [line])
          (lineStep pats (Z.of_nat (List.length done)) line st).
Proof.
  intros Hline Hinv.
  assert (Hlen : Z.of_nat (List.length (done ++ [line]))
                 = Z.of_nat (List.length done) + 1)
    by (rewrite length_app; simpl; lia).
  unfold lineStep.
  pose proof (find_isHeader pats line) as Hhdr.
  pose proof (find_first pats line) as Hfirst.
  unfold isHeader in Hhdr.
  destruct (find (fun p => pattern p line) pats) as [p|].
  - (* a header line: close what is open, open a section *)
    specialize (Hfirst p eq_refl).
    simpl. rewrite Hhdr. simpl.
    unfold LoopInv; simpl.
    assert (Hnew : Spans pats (done ++ [line]) []
                     (mkSection (patName p) line
                        (Z.of_nat (List.length done) + 1)
                        (Z.of_nat (List.length done) + 1))).
    { exists done, line, [], p. simpl. repeat split; auto. }
    assert (Hlast : lastLine (mkSection (patName p) line
                                (Z.of_nat (List.length done) + 1)
                                (Z.of_nat (List.length done) + 1))
                    = Z.of_nat (List.length (done ++ [line]))).
    { unfold lastLine; simpl. rewrite (lineCount_one line Hline). lia. }
    unfold LoopInv in Hinv.
    destruct (currentSection st) as [c|].
    + destruct Hinv as (Hclosed & Hc & Hclast & Hcend & Hchain).
      repeat split; try assumption.
      * apply Forall_app. split.
        -- eapply Forall_impl; [|exact Hclosed].
           intros s. apply SpansSome_more.
        -- constructor; [|constructor].
           exists ([] ++ [line])%list.
           apply (Spans_more done [] [line]) in Hc.
           destruct Hc as (front & hd & body & q & H1 & H2 & H3 & H4 & H5 & H6).
           exists front, hd, body, q. simpl in *. now repeat split.
      * lia.
      * apply chain_snoc; simpl.
        -- exact Hchain.
        -- unfold lastLine in *; simpl in *. lia.
        -- unfold lastLine in *; simpl in *. lia.
    + rewrite Hinv. repeat split; try assumption; [constructor | lia].
  - (* a line no rule matches: it continues what is open *)
    unfold LoopInv in *.
    destruct (currentSection st) as [c|] eqn:Hcur; simpl;
      [|now rewrite Hcur].
    rewrite Hhdr. simpl.
    change (String (ascii_of_nat 10) line) with (nl ++ line).
    destruct Hinv as (Hclosed & Hc & Hclast & Hcend & Hchain).
    repeat split.
    + eapply Forall_impl; [|exact Hclosed].
      intros s. apply SpansSome_more.
    + destruct Hc as (front & hd & body & q & H1 & H2 & H3 & H4 & H5 & H6).
      exists front, hd, (body ++ [line])%list, q.
      cbn [name content startLine]. repeat split; try assumption.
      * rewrite H1, !app_nil_r, <- app_assoc. reflexivity.
      * rewrite H3. symmetry.
        apply (join_snoc nl line (hd :: body)). discriminate.
      * apply Forall_app. split; [assumption|].
        constructor; [exact Hhdr | constructor].
    + unfold lastLine in *. cbn [startLine content] in *.
      rewrite (lineCount_append_line (content c) line Hline). lia.
    + lia.
    + exact Hchain.
Qed.

Lemma parseLoop_inv (todo done : list string) (st : ParseState) :
  Forall (fun l => noLF l = true) todo ->
  LoopInv pats done st ->
  LoopInv pats (done ++ todo)
          (parseLoop pats todo (Z.of_nat (List.length done)) st).
Proof.
  revert done st. induction todo as [|line todo IH]; intros done st Hlf Hinv.
  - now rewrite app_nil_r.
  - inversion Hlf as [|? ? Hline Hrest]; subst. simpl.
    replace (done ++ line :: todo)%list with ((done ++ [line]) ++ todo)%list
      by now rewrite <- app_assoc.
    replace (Z.of_nat (List.length done) + 1)
      with (Z.of_nat (List.length (done ++ [line])))
      by (rewrite length_app; simpl; lia).
    apply IH; [assumption|]. now apply lineStep_inv.
Qed.

Lemma finish_parsed (lines : list string) (st : ParseState) :
  LoopInv pats lines st -> Parsed pats lines (finish st).
Proof.
  unfold LoopInv, Parsed, finish.
  destruct (currentSection st) as [c|].
  - intros (Hclosed & Hc & Hclast & Hcend & Hchain). split.
    + apply Forall_app. split; [assumption|].
      constructor; [now exists [] | constructor].
    + right. now exists (sections st), c.
  - intros ->. split; [constructor | now left].
Qed.

Lemma parseWith_parsed (text : string) :
  Parsed pats (splitLines text) (parseWith pats text).
Proof.
  unfold parseWith. apply finish_parsed.
  apply (parseLoop_inv (splitLines text) [] initState).
  - apply splitLines_noLF.
  - apply LoopInv_init.
Qed.

End ParseLoop.

(** ** Consequences for the parsed sections *)

Lemma chain_bounds (closed : list SyntaxSection) (stop lo : Z) :
  chain closed stop ->
  match closed with b :: _ => lo <= startLine b | [] => True end ->
  Forall (fun x => lo <= startLine x
                   /\ lastLine x < stop
                   /\ endLine x = lastLine x - 1) closed.
Proof.
  induction closed as [|a rest IH]; intros Hchain Hlo; [constructor|].
  destruct Hchain as (Hnext & Hend & Hrest).
  assert (Ha : startLine a <= lastLine a).
  { unfold lastLine. pose proof (lineCount_pos (content a)). lia. }
  assert (IH' : Forall (fun x => lo <= startLine x
                                 /\ lastLine x < stop
                                 /\ endLine x = lastLine x - 1) rest).
  { apply IH; [assumption|]. destruct rest; [exact I | lia]. }
  constructor; [|exact IH'].
  repeat split; try assumption.
  destruct rest as [|b rest']; [lia|].
  inversion IH' as [|? ? (Hb1 & Hb2 & Hb3) _]; subst.
  assert (startLine b <= lastLine b).
  { unfold lastLine. pose proof (lineCount_pos (content b)). lia. }
  lia.
Qed.

Lemma chain_ordered (closed : list SyntaxSection) (stop : Z) :
  chain closed stop -> ForallOrdPairs Before closed.
Proof.
  induction closed as [|a rest IH]; intros Hchain; [constructor|].
  pose proof Hchain as (Hnext & Hend & Hrest).
  constructor; [|now apply IH].
  assert (Ha : startLine a <= lastLine a).
  { unfold lastLine. pose proof (lineCount_pos (content a)). lia. }
  eapply Forall_impl; [|apply (chain_bounds rest stop (lastLine a + 1) Hrest)].
  - intros b (Hb & _). unfold Before. lia.
  - destruct rest; [exact I | lia].
Qed.

Lemma ForallOrdPairs_snoc {A : Type} (R : A -> A -> Prop) (l : list A)
  (c : A) :
  ForallOrdPairs R l -> Forall (fun a => R a c) l ->
  ForallOrdPairs R (l ++ [c]).
Proof.
  induction 1 as [|a l Ha Hl IH]; intros Hc; simpl.
  - repeat constructor.
  - inversion Hc; subst. constructor; [|now apply IH].
    apply Forall_app. split; [assumption | now constructor].
Qed.

Lemma Parsed_ordered (pats : list SectionPattern) (lines : list string)
  (secs : list SyntaxSection) :
  Parsed pats lines secs -> ForallOrdPairs Before secs.
Proof.
  intros [_ [-> | (closed & c & -> & Hchain & _)]]; [constructor|].
  apply ForallOrdPairs_snoc; [eapply chain_ordered; eassumption|].
  eapply Forall_impl;
    [|apply (chain_bounds closed (startLine c)
               (match closed with b :: _ => startLine b | [] => 0 end)
               Hchain)].
  - intros a (_ & Hlast & Hend).
    assert (startLine a <= lastLine a).
    { unfold lastLine. pose proof (lineCount_pos (content a)). lia. }
    unfold Before. lia.
  - destruct closed; [exact I | lia].
Qed.

Lemma Spans_after_junk (pats : list SectionPattern) (lines : list string)
  (s : SyntaxSection) (n : nat) :
  SpansSome pats lines s ->
  Forall (fun l => isHeader pats l = false) (firstn n lines) ->
  Z.of_nat n < startLine s.
Proof.
  intros (back & front & hd & body & p & -> & Hstart & _ & Hp & _) Hjunk.
  rewrite Hstart.
  destruct (Nat.le_gt_cases n (List.length front)) as [Hle|Hgt]; [lia|].
  exfalso.
  rewrite firstn_app in Hjunk. apply Forall_app in Hjunk.
  destruct Hjunk as [_ Hjunk].
  destruct (n - List.length front)%nat as [|k] eqn:Hk; [lia|].
  simpl in Hjunk. inversion Hjunk as [|? ? Hhd _]; subst.
  apply FirstMatch_isHeader in Hp. congruence.
Qed.

Lemma chain_adjacent (closed : list SyntaxSection) (c : SyntaxSection)
  (before after : list SyntaxSection) (a b : SyntaxSection) :
  chain closed (startLine c) ->
  (closed ++ [c] = before ++ a :: b :: after)%list ->
  lastLine a + 1 = startLine b /\ endLine a = lastLine a - 1.
Proof.
  revert closed. induction before as [|x before IH]; intros closed Hchain Heq.
  - destruct closed as [|a' rest]; simpl in Heq.
    + discriminate.
    + injection Heq as -> Hrest.
      destruct Hchain as (Hnext & Hend & _). split; [|assumption].
      destruct rest as [|b' rest']; simpl in Hrest.
      * now injection Hrest as ->.
      * now injection Hrest as -> _.
  - destruct closed as [|x' rest]; simpl in Heq.
    + injection Heq as _ Habs. destruct before; discriminate.
    + injection Heq as _ Hrest.
      destruct Hchain as (_ & _ & Hchain). now apply (IH rest).
Qed.

(** C8: for every catalog and every input text, each parsed section is a
    run of lines of the text that starts at a line matched first, in
    catalog order, by the rule the section is named after; the sections
    come in increasing [startLine], each wholly before the next ones;
    and the lines before the first matched line are in no section. *)
Theorem parse_sections_invariant (pats : list SectionPattern)
  (text : string) :
  let lines := splitLines text in
  let secs := parseWith pats text in
  Forall (SpansSome pats lines) secs
  /\ ForallOrdPairs Before secs
  /\ (forall n,
        Forall (fun l => isHeader pats l = false) (firstn n lines) ->
        Forall (fun s => Z.of_nat n < startLine s) secs).
Proof.
  intros lines secs.
  pose proof (parseWith_parsed pats text) as Hparsed.
  fold lines secs in Hparsed.
  split; [exact (proj1 Hparsed)|]. split.
  - eapply Parsed_ordered; eassumption.
  - intros n Hjunk. eapply Forall_impl; [|exact (proj1 Hparsed)].
    intros s Hs. eapply Spans_after_junk; eassumption.
Qed.

Lemma parse_sections_invariant_witness :
  Forall (fun s => Z.of_nat 2 < startLine s)
         (parseSyntaxSections
            (join nl ["# notes"; "junk"; "main! = |_| {}"; "app [main!]"])).
Proof.
  apply (proj2 (proj2 (parse_sections_invariant sectionPatterns
           (join nl ["# notes"; "junk"; "main! = |_| {}"; "app [main!]"])))
           2%nat).
  repeat (constructor; [vm_compute; reflexivity|]). constructor.
Defined.

(** C10: a section closed by a later matching line has its [endLine]
    one less than the 0-based index of that line, which is one less than
    the 1-based number of its own last line; the section still open at
    the end of the input has its [endLine] at its last line.  When the
    closing line comes right after the header, [endLine] is
    [startLine - 1], below [startLine]. *)
Theorem closed_section_endLine (pats : list SectionPattern)
  (text : string) :
  let lines := splitLines text in
  let secs := parseWith pats text in
  (forall before a b after,
     secs = (before ++ a :: b :: after)%list ->
     (exists front hd rest,
        lines = (front ++ hd :: rest)%list
        /\ isHeader pats hd = true
        /\ startLine b = Z.of_nat (List.length front) + 1
        /\ endLine a = Z.of_nat (List.length front) - 1)
     /\ endLine a = lastLine a - 1
     /\ (startLine b = startLine a + 1 ->
         endLine a = startLine a - 1 /\ endLine a < startLine a))
  /\ (forall before c,
        secs = (before ++ [c])%list ->
        endLine c = lastLine c
        /\ endLine c = Z.of_nat (List.length lines)).
Proof.
  intros lines secs.
  destruct (parseWith_parsed pats text) as [Hspans Hshape].
  fold lines secs in Hspans, Hshape.
  split.
  - intros before a b after Heq.
    destruct Hshape as [Hnil | (closed & c & Hsecs & Hchain & _)].
    { rewrite Hnil in Heq. destruct before; discriminate. }
    rewrite Hsecs in Heq.
    destruct (chain_adjacent closed c before after a b Hchain Heq)
      as [Hnext Hend].
    assert (Hb : SpansSome pats lines b).
    { rewrite Forall_forall in Hspans. apply Hspans.
      rewrite Hsecs, Heq. apply in_or_app. right. right. now left. }
    destruct Hb as (back & front & hd & body & p & Hlines & Hstart & _
                    & Hp & _).
    split; [|split].
    + exists front, hd, (body ++ back)%list.
      repeat split; try assumption.
      * eapply FirstMatch_isHeader; eassumption.
      * lia.
    + assumption.
    + intros Hb2b. lia.
  - intros before c Heq.
    destruct Hshape as [Hnil | (closed & c' & Hsecs & _ & Hlast & Hend)].
    { rewrite Hnil in Heq. destruct before; discriminate. }
    rewrite Hsecs in Heq. apply app_inj_tail in Heq.
    destruct Heq as [_ ->]. split; lia.
Qed.

Lemma closed_section_endLine_witness :
  let a := mkSection "for_loop" "for_loop = 1" 1 0 in
  endLine a = startLine a - 1 /\ endLine a < startLine a.
Proof.
  refine (proj2 (proj2 (proj1 (closed_section_endLine sectionPatterns
            (join nl ["for_loop = 1"; "main! = 2"])) []
            (mkSection "for_loop" "for_loop = 1" 1 0)
            (mkSection "main" "main! = 2" 2 2) [] _)) _).
  - vm_compute. reflexivity.
  - reflexivity.
Defined.

(** * Further properties of the parser, the resolver and the handlers *)

(** ** Splitting and joining lines *)

Lemma join_cons (sep x : string) (xs : list string) :
  xs <> [] -> join sep (x :: xs) = x ++ sep ++ join sep xs.
Proof. destruct xs; [contradiction | reflexivity]. Qed.

Lemma join_splitLines (s : string) : join nl (splitLines s) = s.
Proof.
  induction s as [|c s IH]; [reflexivity|].
  cbn [splitLines].
  destruct (Ascii.eqb_spec c (ascii_of_nat 10)) as [->|Hc].
  - rewrite join_cons by apply splitLines_nonempty. now rewrite IH.
  - pose proof (splitLines_nonempty s) as Hne.
    destruct (splitLines s) as [|piece rest]; [contradiction|].
    destruct rest as [|r rest].
    + simpl in *. now rewrite IH.
    + rewrite join_cons in * by discriminate.
      simpl. simpl in IH. now rewrite IH.
Qed.


Lemma join_app (sep : string) (xs ys : list string) :
  xs <> [] -> ys <> [] ->
  join sep (xs ++ ys) = join sep xs ++ sep ++ join sep ys.
Proof.
  induction xs as [|x xs IH]; [contradiction|]. intros _ Hys.
  destruct xs as [|x' xs].
  - simpl app. now rewrite join_cons.
  - change ((x :: x' :: xs) ++ ys)%list with (x :: ((x' :: xs) ++ ys))%list.
    rewrite join_cons by discriminate.
    rewrite IH by (discriminate || assumption).
    rewrite (join_cons sep x (x' :: xs)) by discriminate.
    now rewrite !append_assoc.
Qed.

(** ** One turn of the loop, by the kind of line *)

Lemma lineStep_header (pats : list SectionPattern) (i : Z) (line : string)
  (st : ParseState) (p : SectionPattern) :
  find (fun q => pattern q line) pats = Some p ->
  lineStep pats i line st
  = mkState
      match currentSection st with
      | Some c =>
          (sections st
           ++ [mkSection (name c) (content c) (startLine c) (i - 1)])%list
      | None => sections st
      end
      (Some (mkSection (patName p) line (i + 1) (i + 1))).
Proof.
  intros Hfind. unfold lineStep.
  pose proof (find_isHeader pats line) as Hhdr. unfold isHeader in Hhdr.
  rewrite Hfind in *. simpl. now rewrite Hhdr.
Qed.

Lemma lineStep_plain (pats : list SectionPattern) (i : Z) (line : string)
  (st : ParseState) :
  find (fun q => pattern q line) pats = None ->
  lineStep pats i line st
  = match currentSection st with
    | Some c =>
        mkState (sections st)
          (Some (mkSection (name c) (content c ++ nl ++ line)
                           (startLine c) (i + 1)))
    | None => st
    end.
Proof.
  intros Hfind. unfold lineStep.
  pose proof (find_isHeader pats line) as Hhdr. unfold isHeader in Hhdr.
  rewrite Hfind in *.
  destruct (currentSection st) as [c|]; simpl.
  - now rewrite Hhdr.
  - reflexivity.
Qed.

Lemma parseLoop_app (pats : list SectionPattern) (l1 l2 : list string)
  (i : Z) (st : ParseState) :
  parseLoop pats (l1 ++ l2) i st
  = parseLoop pats l2 (i + Z.of_nat (List.length l1)) (parseLoop pats l1 i st).
Proof.
  revert i st. induction l1 as [|l l1 IH]; intros i st.
  - simpl. now rewrite Z.add_0_r.
  - cbn [app parseLoop List.length]. rewrite IH. f_equal. lia.
Qed.

(** ** One section per matched line *)

Lemma parseLoop_names (pats : list SectionPattern) (todo : list string)
  (i : Z) (st : ParseState) :
  map name (finish (parseLoop pats todo i st))
  = (map name (finish st) ++ headerNames pats todo)%list.
Proof.
  revert i st. induction todo as [|line todo IH]; intros i st.
  - simpl. now rewrite app_nil_r.
  - cbn [parseLoop]. rewrite IH.
    change (headerNames pats (line :: todo))
      with ((match find (fun p => pattern p line) pats with
             | Some p => [patName p]
             | None => []
             end) ++ headerNames pats todo)%list.
    rewrite app_assoc. f_equal.
    destruct (find (fun p => pattern p line) pats) as [p|] eqn:Hfind.
    + rewrite (lineStep_header pats i line st p Hfind).
      unfold finish; simpl.
      destruct (currentSection st) as [c|];
        now rewrite !map_app.
    + rewrite (lineStep_plain pats i line st Hfind).
      unfold finish.
      destruct (currentSection st) as [c|] eqn:Hcur; simpl.
      * now rewrite !map_app, app_nil_r.
      * now rewrite Hcur, app_nil_r.
Qed.

Lemma headerNames_nil (pats : list SectionPattern) (lines : list string) :
  headerNames pats lines = [] <->
  Forall (fun l => isHeader pats l = false) lines.
Proof.
  induction lines as [|line lines IH].
  - split; [constructor | reflexivity].
  - change (headerNames pats (line :: lines))
      with ((match find (fun p => pattern p line) pats with
             | Some p => [patName p]
             | None => []
             end) ++ headerNames pats lines)%list.
    pose proof (find_isHeader pats line) as Hhdr.
    destruct (find (fun p => pattern p line) pats) as [p|].
    + split; [discriminate|].
      intros H. inversion H; subst. congruence.
    + simpl. rewrite IH. split.
      * intros H. now constructor.
      * intros H. now inversion H.
Qed.

(** X1: the parser yields one section per line that some rule matches,
    in the order of these lines, each named after the first rule, in
    catalog order, that matches its line; so it yields no section
    exactly when no line is matched. *)
Theorem parse_names_are_header_names (pats : list SectionPattern)
  (text : string) :
  map name (parseWith pats text) = headerNames pats (splitLines text)
  /\ (parseWith pats text = [] <->
      Forall (fun l => isHeader pats l = false) (splitLines text)).
Proof.
  assert (Hnames : map name (parseWith pats text)
                   = headerNames pats (splitLines text)).
  { unfold parseWith. now rewrite parseLoop_names. }
  split; [exact Hnames|].
  rewrite <- headerNames_nil, <- Hnames.
  destruct (parseWith pats text); simpl; split; congruence.
Qed.

(** ** The sections cover the text from the first matched line on *)

Lemma lineStep_lines (pats : list SectionPattern) (i : Z) (line : string)
  (st : ParseState) (c : SyntaxSection) :
  noLF line = true ->
  currentSection st = Some c ->
  currentSection (lineStep pats i line st) <> None
  /\ flat_map sectionLines (finish (lineStep pats i line st))
     = (flat_map sectionLines (finish st) ++ [line])%list.
Proof.
  intros Hline Hcur.
  destruct (find (fun p => pattern p line) pats) as [p|] eqn:Hfind.
  - rewrite (lineStep_header pats i line st p Hfind).
    unfold finish; rewrite Hcur; simpl. split; [discriminate|].
    rewrite !flat_map_app. cbn [flat_map]. unfold sectionLines.
    cbn [content].
    rewrite (splitLines_one line Hline), !app_nil_r, <- !app_assoc.
    reflexivity.
  - rewrite (lineStep_plain pats i line st Hfind).
    unfold finish; rewrite Hcur; simpl. split; [discriminate|].
    rewrite !flat_map_app. cbn [flat_map]. unfold sectionLines.
    cbn [content].
    change (String (ascii_of_nat 10) line) with (nl ++ line).
    rewrite splitLines_app, (splitLines_one line Hline), !app_nil_r.
    now rewrite <- !app_assoc.
Qed.

Lemma parseLoop_lines_open (pats : list SectionPattern)
  (todo : list string) (i : Z) (st : ParseState) :
  Forall (fun l => noLF l = true) todo ->
  currentSection st <> None ->
  flat_map sectionLines (finish (parseLoop pats todo i st))
  = (flat_map sectionLines (finish st) ++ todo)%list.
Proof.
  revert i st. induction todo as [|line todo IH]; intros i st Hlf Hcur.
  - simpl. now rewrite app_nil_r.
  - inversion Hlf as [|? ? Hline Hrest]; subst.
    destruct (currentSection st) as [c|] eqn:Hc; [|contradiction].
    destruct (lineStep_lines pats i line st c Hline Hc) as [Hopen Hstep].
    cbn [parseLoop]. rewrite IH by assumption.
    rewrite Hstep, <- app_assoc. reflexivity.
Qed.

Lemma parseLoop_lines (pats : list SectionPattern) (todo : list string)
  (i : Z) (st : ParseState) :
  Forall (fun l => noLF l = true) todo ->
  currentSection st = None -> sections st = [] ->
  flat_map sectionLines (finish (parseLoop pats todo i st))
  = dropJunk pats todo.
Proof.
  revert i st. induction todo as [|line todo IH]; intros i st Hlf Hcur Hsecs.
  - unfold finish; simpl. now rewrite Hcur, Hsecs.
  - inversion Hlf as [|? ? Hline Hrest]; subst.
    cbn [parseLoop dropJunk].
    pose proof (find_isHeader pats line) as Hhdr.
    destruct (find (fun p => pattern p line) pats) as [p|] eqn:Hfind.
    + rewrite Hhdr, (lineStep_header pats i line st p Hfind), Hcur, Hsecs.
      rewrite parseLoop_lines_open by (assumption || discriminate).
      unfold finish, sectionLines; simpl.
      now rewrite (splitLines_one line Hline).
    + rewrite Hhdr, (lineStep_plain pats i line st Hfind), Hcur.
      now apply IH.
Qed.

Lemma join_concat (sep : string) (groups : list (list string)) :
  Forall (fun g => g <> []) groups ->
  join sep (map (join sep) groups) = join sep (List.concat groups).
Proof.
  induction groups as [|g groups IH]; [reflexivity|].
  intros Hne. inversion Hne as [|? ? Hg Hrest]; subst.
  destruct groups as [|g' groups].
  - simpl. now rewrite app_nil_r.
  - change (map (join sep) (g :: g' :: groups))
      with (join sep g :: map (join sep) (g' :: groups)).
    change (List.concat (g :: g' :: groups))
      with (g ++ List.concat (g' :: groups))%list.
    rewrite join_cons by discriminate.
    rewrite IH by assumption.
    rewrite join_app; [reflexivity | assumption |].
    inversion Hrest; subst. destruct g'; [contradiction | discriminate].
Qed.

(** X2: the lines of the sections' contents, taken section after section,
    are the lines of the text from the first matched line on: no such
    line is lost, repeated or moved. *)
Theorem parse_covers_text (pats : list SectionPattern) (text : string) :
  flat_map sectionLines (parseWith pats text)
  = dropJunk pats (splitLines text).
Proof.
  unfold parseWith. apply parseLoop_lines; try reflexivity.
  apply splitLines_noLF.
Qed.

(** X3: the contents of the sections joined by line feeds are the text
    from its first matched line on; when the first line of the text is
    matched, they are the text itself. *)
Theorem parse_contents_round_trip (pats : list SectionPattern)
  (text : string) :
  join nl (map content (parseWith pats text))
  = join nl (dropJunk pats (splitLines text))
  /\ (isHeader pats (hd "" (splitLines text)) = true ->
      join nl (map content (parseWith pats text)) = text).
Proof.
  assert (Hjoin : join nl (map content (parseWith pats text))
                  = join nl (dropJunk pats (splitLines text))).
  { rewrite <- parse_covers_text, flat_map_concat_map, <- join_concat.
    - rewrite map_map. f_equal. apply map_ext. intros s.
      unfold sectionLines. now rewrite join_splitLines.
    - apply Forall_map, Forall_forall. intros s _.
      apply splitLines_nonempty. }
  split; [exact Hjoin|].
  intros Hfirst. rewrite Hjoin.
  pose proof (splitLines_nonempty text) as Hne.
  rewrite <- (join_splitLines text) at 2.
  destruct (splitLines text) as [|l ls]; [contradiction|].
  simpl in Hfirst. cbn [dropJunk]. now rewrite Hfirst.
Qed.

Lemma parse_contents_round_trip_witness :
  let text := join nl ["main! = |_| {"; "    dbg 1"; "}"; "import pf.Stdout";
                       ""] in
  join nl (map content (parseSyntaxSections text)) = text.
Proof.
  intros text.
  apply (proj2 (parse_contents_round_trip sectionPatterns text)).
  vm_compute. reflexivity.
Defined.

(** ** Line numbers stay within the text *)

Lemma SpansSome_start (pats : list SectionPattern) (lines : list string)
  (s : SyntaxSection) :
  SpansSome pats lines s ->
  1 <= startLine s <= Z.of_nat (List.length lines).
Proof.
  intros (back & front & hd & body & p & -> & -> & _).
  rewrite length_app. simpl. lia.
Qed.

(** X4: every parsed section starts at a line of the text, numbered from
    1, and its content ends within the text; its recorded [endLine] is
    its last line or the line before, so it is never below
    [startLine - 1] nor beyond the number of lines of the text. *)
Theorem parse_line_numbers (pats : list SectionPattern) (text : string) :
  let total := Z.of_nat (List.length (splitLines text)) in
  Forall (fun s => 1 <= startLine s <= total
                   /\ startLine s <= lastLine s <= total
                   /\ lastLine s - 1 <= endLine s <= lastLine s)
         (parseWith pats text).
Proof.
  intros total.
  destruct (parseWith_parsed pats text) as [Hspans Hshape].
  assert (Hpos : forall s, startLine s <= lastLine s).
  { intros s. unfold lastLine. pose proof (lineCount_pos (content s)). lia. }
  destruct Hshape as [-> | (closed & c & Heq & Hchain & Hlast & Hend)];
    [constructor|].
  rewrite Heq in *. apply Forall_app in Hspans. destruct Hspans as [Hcl Hc].
  inversion Hc as [|? ? Hcs _]; subst.
  apply SpansSome_start in Hcs. fold total in Hcs, Hlast, Hend.
  apply Forall_app. split.
  - pose proof (chain_bounds closed (startLine c)
                  (match closed with b :: _ => startLine b | [] => 0 end)
                  Hchain) as Hb.
    assert (Hlo : match closed with
                  | [] => True
                  | b :: _ =>
                      match closed with b0 :: _ => startLine b0 | [] => 0 end
                      <= startLine b
                  end)
      by (destruct closed; [exact I | lia]).
    specialize (Hb Hlo).
    rewrite Forall_forall in *. intros s Hs.
    destruct (Hb s Hs) as (_ & Hl & He).
    pose proof (SpansSome_start pats _ s (Hcl s Hs)) as Hst.
    fold total in Hst. specialize (Hpos s). lia.
  - constructor; [|constructor]. specialize (Hpos c). lia.
Qed.

(** ** Closed sections are final *)

Lemma append_empty_r (a : string) : a ++ "" = a.
Proof. induction a as [|c a IH]; simpl; [reflexivity | now rewrite IH]. Qed.

Lemma parseLoop_grow (pats : list SectionPattern) (todo : list string)
  (i : Z) (st : ParseState) (c : SyntaxSection) :
  currentSection st = Some c ->
  exists c' rest,
    finish (parseLoop pats todo i st) = (sections st ++ c' :: rest)%list
    /\ name c' = name c
    /\ startLine c' = startLine c
    /\ exists tail, content c' = content c ++ tail.
Proof.
  revert i st c. induction todo as [|line todo IH]; intros i st c Hcur.
  - exists c, []. unfold finish; simpl. rewrite Hcur.
    repeat split. exists "". now rewrite append_empty_r.
  - cbn [parseLoop].
    destruct (find (fun p => pattern p line) pats) as [p|] eqn:Hfind.
    + rewrite (lineStep_header pats i line st p Hfind), Hcur.
      match goal with
      | |- context [parseLoop pats todo ?j (mkState ?secs (Some ?n))] =>
          destruct (IH j (mkState secs (Some n)) n eq_refl)
            as (c' & rest & Hfin & _)
      end.
      rewrite Hfin. cbn [sections].
      exists (mkSection (name c) (content c) (startLine c) (i - 1)),
             (c' :: rest).
      rewrite <- app_assoc. repeat split.
      exists "". simpl. now rewrite append_empty_r.
    + rewrite (lineStep_plain pats i line st Hfind), Hcur.
      match goal with
      | |- context [parseLoop pats todo ?j (mkState ?secs (Some ?n))] =>
          destruct (IH j (mkState secs (Some n)) n eq_refl)
            as (c' & rest & Hfin & Hn & Hs & tail & Ht)
      end.
      rewrite Hfin. cbn [sections name startLine content] in *.
      exists c', rest. repeat split; try assumption.
      exists (nl ++ line ++ tail). rewrite Ht. now rewrite !append_assoc.
Qed.

(** X5: text added after a line feed never changes the sections already
    closed: they come back as they were, and the section that was open
    keeps its name and its start line and has its content extended. *)
Theorem parse_is_stable_under_append (pats : list SectionPattern)
  (text more : string) (closed : list SyntaxSection) (c : SyntaxSection) :
  parseWith pats text = (closed ++ [c])%list ->
  exists c' rest,
    parseWith pats (text ++ nl ++ more) = (closed ++ c' :: rest)%list
    /\ name c' = name c
    /\ startLine c' = startLine c
    /\ exists tail, content c' = content c ++ tail.
Proof.
  unfold parseWith. intros Hparse.
  rewrite splitLines_app, parseLoop_app.
  set (st := parseLoop pats (splitLines text) 0 initState) in *.
  assert (Hinv : LoopInv pats (splitLines text) st).
  { apply (parseLoop_inv pats (splitLines text) [] initState).
    - apply splitLines_noLF.
    - apply LoopInv_init. }
  unfold LoopInv in Hinv. unfold finish in Hparse.
  destruct (currentSection st) as [c0|] eqn:Hcur.
  - apply app_inj_tail in Hparse. destruct Hparse as [Hsecs ->].
    rewrite <- Hsecs. now apply parseLoop_grow.
  - rewrite Hinv in Hparse. destruct closed; discriminate.
Qed.

Lemma parse_is_stable_under_append_witness :
  exists c' rest,
    parseSyntaxSections
      (join nl ["if_demo : Bool"; "for_loop = 1"] ++ nl ++ "main! = 2")
    = ([mkSection "if_demo" "if_demo : Bool" 1 0] ++ c' :: rest)%list
    /\ name c' = "for_loop"
    /\ startLine c' = 2
    /\ exists tail, content c' = "for_loop = 1" ++ tail.
Proof.
  apply (parse_is_stable_under_append sectionPatterns
           (join nl ["if_demo : Bool"; "for_loop = 1"]) "main! = 2"
           [mkSection "if_demo" "if_demo : Bool" 1 0]
           (mkSection "for_loop" "for_loop = 1" 2 2)).
  vm_compute. reflexivity.
Defined.

(** ** The catalog of the reference file *)

Lemma stripPrefix_startsWith (s w r : string) :
  stripPrefix s w = Some r -> startsWith s w = true.
Proof.
  revert s. induction w as [|c w IH]; intros s; simpl; [reflexivity|].
  destruct s as [|d s]; [discriminate|].
  destruct (Ascii.eqb c d); [apply IH | discriminate].
Qed.

Lemma testSpaces0_word (w t s : string) :
  testSpaces0 w t s = true -> startsWith s w = true.
Proof.
  unfold testSpaces0.
  destruct (stripPrefix s w) as [r|] eqn:Hs; [|discriminate].
  intros _. eapply stripPrefix_startsWith; eassumption.
Qed.

Lemma testSpaces1_word (w s : string) :
  testSpaces1 w s = true -> startsWith s w = true.
Proof.
  unfold testSpaces1.
  destruct (stripPrefix s w) as [r|] eqn:Hs; [|discriminate].
  intros _. eapply stripPrefix_startsWith; eassumption.
Qed.

Lemma startsWith_two (l w1 w2 : string) :
  startsWith l w1 = true -> startsWith l w2 = true ->
  startsWith w1 w2 || startsWith w2 w1 = true.
Proof.
  revert l w2. induction w1 as [|c w1 IH]; intros l w2 H1 H2.
  - destruct w2; reflexivity.
  - destruct w2 as [|d w2]; [reflexivity|].
    destruct l as [|e l]; [discriminate|]. simpl in *.
    destruct (Ascii.eqb_spec c e) as [->|]; [|discriminate].
    destruct (Ascii.eqb_spec d e) as [->|]; [|discriminate].
    rewrite Ascii.eqb_refl. eapply IH; eassumption.
Qed.

(** X6: in the catalog of the reference file no line is matched by two
    rules, so the order of the catalog never decides the name of a
    section. *)
Theorem sectionPatterns_unambiguous (line : string)
  (p q : SectionPattern) :
  In p sectionPatterns -> In q sectionPatterns ->
  pattern p line = true -> pattern q line = true ->
  p = q.
Proof.
  intros Hp Hq Tp Tq. simpl in Hp.
  repeat (destruct Hp as [<-|Hp];
          [cbn [pattern] in Tp;
           (apply testSpaces0_word in Tp || apply testSpaces1_word in Tp)
          | ]);
    [ .. | destruct Hp ];
    simpl in Hq;
    (repeat (destruct Hq as [<-|Hq];
             [ try reflexivity;
               cbn [pattern] in Tq;
               (apply testSpaces0_word in Tq || apply testSpaces1_word in Tq);
               pose proof (startsWith_two _ _ _ Tp Tq) as Habs;
               vm_compute in Habs; discriminate Habs
             | ]));
    destruct Hq.
Qed.

Lemma sectionPatterns_unambiguous_witness :
  mkPattern "imports" (testSpaces1 "import")
  = mkPattern "imports" (testSpaces1 "import").
Proof.
  apply (sectionPatterns_unambiguous "import pf.Stdout").
  - simpl. do 20 right. left. reflexivity.
  - simpl. do 20 right. left. reflexivity.
  - vm_compute. reflexivity.
  - vm_compute. reflexivity.
Defined.

(** ** Looking a parsed section up by name *)

Lemma find_by_name (secs : list SyntaxSection) (n : string) :
  In n (map name secs) ->
  exists s, find (fun s => String.eqb (name s) n) secs = Some s /\ In s secs.
Proof.
  induction secs as [|s secs IH]; simpl; [intros []|].
  intros Hin. destruct (String.eqb_spec (name s) n) as [Heq|Hne].
  - exists s. split; [reflexivity | now left].
  - destruct Hin as [Hin|Hin]; [contradiction|].
    destruct (IH Hin) as (s' & Hfind & Hs'). exists s'. split; [|right]; assumption.
Qed.

Lemma join_nonempty (sep first : string) (rest : list string) :
  first <> "" -> join sep (first :: rest) <> "".
Proof.
  intros Hne. destruct first as [|c first]; [contradiction|].
  destruct rest; simpl; discriminate.
Qed.

(** X7: on the catalog of the reference file the content of a parsed
    section is never empty, so looking a name up among the parsed
    sections gives the empty string exactly when no section has that
    name. *)
Theorem sectionContent_empty_iff_absent (text n : string) :
  sectionContent (parseSyntaxSections text) n = "" <->
  ~ In n (map name (parseSyntaxSections text)).
Proof.
  split.
  - intros Hempty Hin.
    destruct (find_by_name _ _ Hin) as (s & Hfind & Hs).
    unfold sectionContent in Hempty. rewrite Hfind in Hempty.
    destruct (parseWith_parsed sectionPatterns text) as [Hspans _].
    rewrite Forall_forall in Hspans.
    destruct (Hspans s Hs)
      as (back & front & hd & body & p & _ & _ & Hcontent & Hp & _).
    apply FirstMatch_isHeader in Hp.
    rewrite Hcontent in Hempty. revert Hempty. apply join_nonempty.
    intros ->. vm_compute in Hp. discriminate.
  - apply sectionContent_absent.
Qed.

(** ** The resolver and the table *)

Lemma matchLoop_in (queryLower t d : string)
  (entries : list (string * Topic)) :
  matchLoop queryLower entries = Some (t, d) ->
  exists tp, In (t, tp) entries /\ d = description tp
             /\ satisfies queryLower (t, tp).
Proof.
  intros H. pose proof (matchLoop_first queryLower entries) as Hfirst.
  rewrite H in Hfirst.
  destruct Hfirst as (before & [t' tp] & after & -> & -> & -> & Hsat & _).
  exists tp. repeat split; [|assumption].
  apply in_or_app. right. now left.
Qed.

(** X8: the topic field of a search result is ["help"] exactly when the
    resolver finds no match; on a match it is a key of the table and the
    description field is the description the table gives to that key. *)
Theorem search_topic_field (file : ReadOutcome) (query : string) :
  let out := structuredContent (fst (search_roc_syntax file query)) in
  (topic out = "help" <-> resolve query = None)
  /\ (forall t, resolve query = Some t ->
        topic out = t
        /\ exists tp, In (t, tp) TOPICS /\ outDescription out = description tp).
Proof.
  intros out. unfold out. rewrite search_structured. unfold resolve.
  destruct (resolveFull query) as [[t d]|] eqn:Hfull; simpl.
  - destruct (matchLoop_in _ _ _ _ Hfull) as (tp & Hin & Hd & _).
    split.
    + split; [|discriminate]. intros ->. exfalso.
      simpl in Hin.
      repeat (destruct Hin as [Hin|Hin]; [discriminate Hin|]).
      exact Hin.
    + intros t' [= <-]. split; [reflexivity|]. now exists tp.
  - split; [now split | discriminate].
Qed.

Lemma search_topic_field_witness :
  topic (structuredContent (fst (search_roc_syntax (ReadOk "") "Loops")))
  = "loops"
  /\ exists tp,
       In ("loops", tp) TOPICS
       /\ outDescription
            (structuredContent (fst (search_roc_syntax (ReadOk "") "Loops")))
          = description tp.
Proof.
  apply (proj2 (search_topic_field (ReadOk "") "Loops") "loops").
  vm_compute. reflexivity.
Defined.

(** X9: a keyword of a topic that is its own lowercase form, sent as a
    query, always resolves, and to its own topic or to a topic declared
    before it. *)
Theorem keyword_resolves_at_or_before (e : string * Topic) (k : string) :
  In e TOPICS -> In k (keywords (snd e)) -> toLowerCase k = k ->
  exists before e' after,
    TOPICS = (before ++ e' :: after)%list
    /\ resolve k = Some (fst e')
    /\ In e (e' :: after).
Proof.
  intros He Hk Hlow.
  assert (Hsat : satisfies (toLowerCase k) e).
  { right. exists k. split; [assumption|]. left. rewrite Hlow.
    exists "", "". simpl. now rewrite append_empty_r. }
  unfold resolve, resolveFull.
  pose proof (matchLoop_first (toLowerCase k) TOPICS) as Hfirst.
  destruct (matchLoop (toLowerCase k) TOPICS) as [[t d]|].
  - destruct Hfirst as (before & e' & after & Heq & -> & _ & _ & Hbefore).
    exists before, e', after. repeat split; [assumption|].
    rewrite Heq in He. apply in_app_or in He.
    destruct He as [He|He]; [|assumption].
    exfalso. exact (Hbefore e He Hsat).
  - exfalso. exact (Hfirst e He Hsat).
Qed.

Lemma keyword_resolves_at_or_before_witness :
  exists before e' after,
    TOPICS = (before ++ e' :: after)%list
    /\ resolve "assert" = Some (fst e')
    /\ In ("testing",
           mkTopic ["test"; "expect"; "assert"]
                   "Testing with expect and test blocks") (e' :: after).
Proof.
  apply (keyword_resolves_at_or_before
           ("testing", mkTopic ["test"; "expect"; "assert"]
                               "Testing with expect and test blocks")).
  - simpl. do 16 right. left. reflexivity.
  - simpl. right. right. left. reflexivity.
  - reflexivity.
Defined.

(** ** Lowercasing *)

Lemma lowerUnit_idem (c : ascii) : lowerUnit (lowerUnit c) = lowerUnit c.
Proof. destruct c as [[] [] [] [] [] [] [] []]; reflexivity. Qed.

Lemma toLowerCase_idem (s : string) :
  toLowerCase (toLowerCase s) = toLowerCase s.
Proof.
  induction s as [|c s IH]; simpl; [reflexivity|].
  now rewrite lowerUnit_idem, IH.
Qed.

Lemma toLowerCase_app (a b : string) :
  toLowerCase (a ++ b) = toLowerCase a ++ toLowerCase b.
Proof. induction a as [|c a IH]; simpl; [reflexivity | now rewrite IH]. Qed.

Lemma append_same_shape (a a' b b' : string) :
  String.length a = String.length a' ->
  a ++ b = a' ++ b' -> a = a' /\ b = b'.
Proof.
  revert a'. induction a as [|c a IH]; intros [|c' a'] Hlen Heq;
    simpl in *; try discriminate.
  - now split.
  - injection Heq as -> Heq. injection Hlen as Hlen.
    destruct (IH a' Hlen Heq) as [-> ->]. now split.
Qed.

Lemma toLowerCase_length (s : string) :
  String.length (toLowerCase s) = String.length s.
Proof. induction s as [|c s IH]; simpl; [reflexivity | now rewrite IH]. Qed.

Lemma append_length (a b : string) :
  String.length (a ++ b) = (String.length a + String.length b)%nat.
Proof. induction a as [|c a IH]; simpl; [reflexivity | now rewrite IH]. Qed.

Lemma substring_of_lowered (q k : string) :
  isSubstring k (toLowerCase q) -> toLowerCase k = k.
Proof.
  intros (a & b & Heq).
  pose proof (toLowerCase_idem q) as Hidem.
  rewrite Heq in Hidem. rewrite !toLowerCase_app in Hidem.
  apply append_same_shape in Hidem; [|apply toLowerCase_length].
  destruct Hidem as [_ Hidem].
  apply append_same_shape in Hidem; [|apply toLowerCase_length].
  exact (proj1 Hidem).
Qed.

(** X10: a keyword with a capital letter in it never occurs in the
    lowercased query, whatever the query; such a keyword (Ok, Err and
    Try in the table) matches only a query that occurs in it. *)
Theorem capital_keyword_never_contained (query k : string) :
  toLowerCase k <> k -> includes (toLowerCase query) k = false.
Proof.
  intros Hcap. destruct (includes (toLowerCase query) k) eqn:Hinc;
    [|reflexivity].
  apply includes_spec, substring_of_lowered in Hinc. contradiction.
Qed.

Lemma capital_keyword_never_contained_witness :
  includes (toLowerCase "Result Ok or Err") "Ok" = false.
Proof.
  apply capital_keyword_never_contained. vm_compute. discriminate.
Defined.

(** X11: the resolver does not tell a query from its lowercase form:
    both resolve alike, and the search handler returns the same
    structured content for both. *)
Theorem resolve_ignores_case (file : ReadOutcome) (query : string) :
  resolve (toLowerCase query) = resolve query
  /\ structuredContent (fst (search_roc_syntax file (toLowerCase query)))
     = structuredContent (fst (search_roc_syntax file query)).
Proof.
  assert (Hfull : resolveFull (toLowerCase query) = resolveFull query).
  { unfold resolveFull. now rewrite toLowerCase_idem. }
  split.
  - unfold resolve. now rewrite Hfull.
  - now rewrite !search_structured, Hfull.
Qed.

Lemma matchLoop_head (queryLower : string) (e : string * Topic)
  (rest : list (string * Topic)) :
  ~ In (fst e) (map fst rest) ->
  option_map fst (matchLoop queryLower (e :: rest)) = Some (fst e)
  <-> satisfies queryLower e.
Proof.
  intros Hfresh. cbn [matchLoop].
  pose proof (topicMatches_spec queryLower e) as Hspec.
  destruct (topicMatches queryLower e).
  - split; [intros _; now apply Hspec | reflexivity].
  - split.
    + destruct (matchLoop queryLower rest) as [[t d]|] eqn:Hrest;
        [|discriminate].
      simpl. intros [= ->]. exfalso. apply Hfresh.
      destruct (matchLoop_in _ _ _ _ Hrest) as (tp & Hin & _).
      apply (in_map fst) in Hin. exact Hin.
    + intros Hsat. apply Hspec in Hsat. discriminate.
Qed.

(** X12: the first topic of the table shadows the others: a query
    resolves to [operators] exactly when it passes the test of that
    entry, whatever other entries it would pass; so every query in which
    one of its keywords occurs, such as [or] or [-], goes to
    [operators]. *)
Theorem first_topic_shadows (query : string) :
  resolve query = Some "operators" <->
  exists tp, hd_error TOPICS = Some ("operators", tp)
             /\ satisfies (toLowerCase query) ("operators", tp).
Proof.
  unfold resolve, resolveFull, TOPICS.
  etransitivity.
  - apply matchLoop_head. simpl. intros Hin.
    repeat (destruct Hin as [Hin|Hin]; [discriminate Hin|]). exact Hin.
  - cbn [hd_error fst]. split.
    + intros Hsat. eexists. split; [reflexivity | exact Hsat].
    + intros (tp & [= <-] & Hsat). exact Hsat.
Qed.

(** ** The examples payload *)

Lemma assemble_single (x : string) : assemble [x] = x.
Proof.
  unfold assemble, truthy. simpl.
  destruct (String.eqb_spec x ""); simpl; congruence.
Qed.

Lemma assemble_pair (a b : string) :
  assemble [a; b]
  = if String.eqb a "" then b
    else if String.eqb b "" then a
    else a ++ separator ++ b.
Proof.
  unfold assemble, truthy. simpl.
  destruct (String.eqb_spec a ""), (String.eqb_spec b ""); simpl;
    congruence.
Qed.

(** X13: after a failed read the search handler still answers every
    query: a query without a match gets the help listing, a query that
    resolves to [strings] gets the fixed unicode example alone, and a
    query that resolves to any other topic gets empty examples. *)
Theorem search_after_failed_read (error query : string) :
  let out :=
    structuredContent (fst (search_roc_syntax (ReadThrows error) query)) in
  match resolve query with
  | None => examples out = topicList
  | Some t =>
      topic out = t
      /\ examples out = if String.eqb t "strings" then unicodeExample else ""
  end.
Proof.
  intros out. unfold out. rewrite search_structured. unfold resolve.
  destruct (resolveFull query) as [[t d]|] eqn:Hfull; [|reflexivity].
  split; [reflexivity|].
  apply resolveFull_in_table in Hfull. cbn [option_map fst examples].
  change (fst (loadSyntaxReference (ReadThrows error))) with loadFailure.
  simpl in Hfull.
  repeat (destruct Hfull as [<-|Hfull]; [vm_compute; reflexivity|]).
  destruct Hfull.
Qed.




(** X15: for a topic mapped to one section and nothing else, the
    examples are the content of that section as parsed, without any
    separator; for a topic mapped to two sections, the separator stands
    between them only when both are there. *)
Theorem section_examples_shape (file : ReadOutcome) (query t : string) :
  resolve query = Some t ->
  let doc := fst (loadSyntaxReference file) in
  let secs := parseSyntaxSections doc in
  let out := structuredContent (fst (search_roc_syntax file query)) in
  extras t (splitLines doc) = [] ->
  (forall n, mappedSections t = [n] ->
             examples out = sectionContent secs n)
  /\ (forall n1 n2, mappedSections t = [n1; n2] ->
        examples out
        = if String.eqb (sectionContent secs n1) ""
          then sectionContent secs n2
          else if String.eqb (sectionContent secs n2) ""
               then sectionContent secs n1
               else sectionContent secs n1
                    ++ nl ++ nl ++ "---" ++ nl ++ nl
                    ++ sectionContent secs n2).
Proof.
  intros Hres doc secs out Hextras. unfold out.
  rewrite search_structured. unfold resolve in Hres.
  destruct (resolveFull query) as [[t' d]|] eqn:Hfull; [|discriminate].
  injection Hres as ->. cbn [examples].
  rewrite relevantSections_table
    by (eapply resolveFull_in_table; eassumption).
  fold doc secs. rewrite Hextras, app_nil_r.
  split.
  - intros n ->. apply assemble_single.
  - intros n1 n2 ->. apply assemble_pair.
Qed.

Lemma section_examples_shape_witness :
  let doc := join nl ["for_loop = || {"; "    1"; "}"; "main! = 2"] in
  examples (structuredContent (fst (search_roc_syntax (ReadOk doc) "iterate")))
  = sectionContent (parseSyntaxSections doc) "for_loop".
Proof.
  intros doc.
  refine (proj1 (section_examples_shape (ReadOk doc) "iterate" "loops" _ _)
                "for_loop" _).
  - vm_compute. reflexivity.
  - reflexivity.
  - reflexivity.
Defined.
